(** * Verification of the caching and pooling layer of body-parser

    Shallow embedding of [lib/parse-cache.js], [lib/content-type-cache.js]
    and [lib/buffer-pool.js].

    Conventions:
    - a JavaScript string is its sequence of UTF-16 code units, [list N];
    - a JavaScript [Map] is the list of its entries in insertion order
      (the order [keys()] and [entries()] iterate in);
    - [Date.now()] is an explicit argument [now] of every operation that
      reads the clock;
    - object state is passed explicitly: every method returns its result
      together with the updated object. *)

From Stdlib Require Import ZArith NArith.
From Stdlib Require Strings.String Strings.Ascii.
From stdpp Require Import base list.

Definition jsstring := list N.

(** String literals of the development, written in ASCII. *)
Definition js (s : String.string) : jsstring :=
  map Ascii.N_of_ascii (String.list_ascii_of_string s).

(** ** JavaScript [Map], as its insertion-ordered list of entries *)
Module JsMap.
Section JsMap.
Context {K V : Type} `{EqDecision K}.

(** [m.get(k)] *)
Fixpoint get (k : K) (m : list (K * V)) : option V :=
  match m with
  | [] => None
  | (k', v) :: m' => if decide (k' = k) then Some v else get k m'
  end.

(** [m.delete(k)]: removes the entry of [k], if any. *)
Fixpoint delete (k : K) (m : list (K * V)) : list (K * V) :=
  match m with
  | [] => []
  | (k', v) :: m' => if decide (k' = k) then m' else (k', v) :: delete k m'
  end.

(** [m.set(k, v)]: an existing key keeps its position and gets the new
    value; a new key is appended at the end of the insertion order. *)
Fixpoint set (k : K) (v : V) (m : list (K * V)) : list (K * V) :=
  match m with
  | [] => [(k, v)]
  | (k', v') :: m' =>
      if decide (k' = k) then (k', v) :: m' else (k', v') :: set k v m'
  end.

(** [m.keys().next().value]: [None] stands for [undefined]. *)
Definition first_key (m : list (K * V)) : option K :=
  match m with
  | [] => None
  | (k, _) :: _ => Some k
  end.

Definition keys (m : list (K * V)) : list K := map fst m.
End JsMap.
End JsMap.

(** ** [lib/parse-cache.js] *)
Module ParseCache.

Definition DEFAULT_TTL : Z := 60000.
Definition MAX_CACHE_SIZE : Z := 100.
Definition MAX_CACHEABLE_SIZE : nat := 10 * 1024.

(** A request body: [string|Buffer]. *)
Inductive body :=
| BodyString (s : jsstring)
| BodyBuffer (b : list Byte.byte).

(** [body.length]: code units of a string, bytes of a Buffer. *)
Definition body_length (b : body) : nat :=
  match b with
  | BodyString s => length s
  | BodyBuffer bs => length bs
  end.

Record entry {V : Type} := mkEntry { value : V; expiresAt : Z }.
Arguments entry : clear implicits.

Record ParseCache {V : Type} := mkParseCache {
  cache : list (jsstring * entry V);
  ttl : Z;
  maxSize : Z;
  hits : nat;
  misses : nat;
  evictions : nat
}.
Arguments ParseCache : clear implicits.

(** [stats()] (the floating-point [hitRate] ratio is left out). *)
Record Stats := mkStats {
  st_size : nat;
  st_hits : nat;
  st_misses : nat;
  st_evictions : nat
}.

Section ParseCache.
Context {V : Type}.
(** [buffer.toString()]: UTF-8 decoding of a Buffer. *)
Variable utf8_decode : list Byte.byte -> jsstring.
(** [crypto.createHash('sha256').update(s).digest('hex')]. *)
Variable sha256_hex : jsstring -> jsstring.

Definition body_toString (b : body) : jsstring :=
  match b with
  | BodyString s => s
  | BodyBuffer bs => utf8_decode bs
  end.

(** [constructor (ttl = DEFAULT_TTL, maxSize = MAX_CACHE_SIZE)] *)
Definition new (ttl maxSize : Z) : ParseCache V :=
  mkParseCache V [] ttl maxSize 0 0 0.

Definition with_cache (c : ParseCache V) m : ParseCache V :=
  mkParseCache V m (ttl c) (maxSize c) (hits c) (misses c) (evictions c).
Definition incr_hits (c : ParseCache V) : ParseCache V :=
  mkParseCache V (cache c) (ttl c) (maxSize c) (S (hits c)) (misses c) (evictions c).
Definition incr_misses (c : ParseCache V) : ParseCache V :=
  mkParseCache V (cache c) (ttl c) (maxSize c) (hits c) (S (misses c)) (evictions c).
Definition incr_evictions (c : ParseCache V) : ParseCache V :=
  mkParseCache V (cache c) (ttl c) (maxSize c) (hits c) (misses c) (S (evictions c)).

(** [_generateKey(body)] *)
Definition _generateKey (b : body) : jsstring :=
  if body_length b <? 100 then body_toString b
  else sha256_hex (body_toString b).

(** [get(body)] *)
Definition get (b : body) (now : Z) (c : ParseCache V) : option V * ParseCache V :=
  if MAX_CACHEABLE_SIZE <? body_length b then (None, c)
  else
    let key := _generateKey b in
    match JsMap.get key (cache c) with
    | None => (None, incr_misses c)
    | Some e =>
        if (expiresAt e <? now)%Z
        then (None, incr_misses (with_cache c (JsMap.delete key (cache c))))
        else (Some (value e), incr_hits c)
    end.

(** [set(body, value)] *)
Definition set (b : body) (v : V) (now : Z) (c : ParseCache V) : ParseCache V :=
  if MAX_CACHEABLE_SIZE <? body_length b then c
  else
    let c1 :=
      if (maxSize c <=? Z.of_nat (length (cache c)))%Z
      then
        let m := match JsMap.first_key (cache c) with
                 | Some firstKey => JsMap.delete firstKey (cache c)
                 | None => cache c   (* [delete(undefined)] *)
                 end in
        incr_evictions (with_cache c m)
      else c in
    let key := _generateKey b in
    with_cache c1 (JsMap.set key (mkEntry V v (now + ttl c)) (cache c1)).

(** [stats()] *)
Definition stats (c : ParseCache V) : Stats :=
  mkStats (length (cache c)) (hits c) (misses c) (evictions c).

(** [clear()] *)
Definition clear (c : ParseCache V) : ParseCache V := with_cache c [].

(** [cleanup()]: the loop runs over [this.cache.entries()] while deleting
    the entry it is visiting; a Map iterator is not disturbed by the
    deletion of the entry already visited, so the loop visits the
    entries as they were when it started. *)
Definition cleanup_body (now : Z) (acc : list (jsstring * entry V) * nat)
    (kv : jsstring * entry V) : list (jsstring * entry V) * nat :=
  let '(m, cleaned) := acc in
  let '(key, e) := kv in
  if (expiresAt e <? now)%Z then (JsMap.delete key m, S cleaned) else (m, cleaned).

Definition cleanup (now : Z) (c : ParseCache V) : nat * ParseCache V :=
  let '(m, cleaned) := fold_left (cleanup_body now) (cache c) (cache c, 0%nat) in
  (cleaned, with_cache c m).

(** A caller's sequence of calls on one cache instance. *)
Inductive op :=
| OpGet (b : body) (now : Z)
| OpSet (b : body) (v : V) (now : Z)
| OpCleanup (now : Z)
| OpClear.

Definition step (c : ParseCache V) (o : op) : ParseCache V :=
  match o with
  | OpGet b now => snd (get b now c)
  | OpSet b v now => set b v now c
  | OpCleanup now => snd (cleanup now c)
  | OpClear => clear c
  end.

Definition run (c : ParseCache V) (ops : list op) : ParseCache V :=
  fold_left step ops c.
End ParseCache.

End ParseCache.

(** ** [lib/content-type-cache.js] *)
Module ContentTypeCache.

(** The result of [contentType.parse]: an object [{ type, parameters }]. *)
Record ContentType := mkContentType {
  type : jsstring;
  parameters : list (jsstring * jsstring)
}.

Import Strings.String.StringSyntax.
Local Open Scope string_scope.

Definition MAX_CACHE_SIZE : nat := 50.

(** [Object.entries(COMMON_TYPES)] *)
Definition COMMON_TYPES : list (jsstring * ContentType) := [
  (js "application/json",
     mkContentType (js "application/json") []);
  (js "application/json; charset=utf-8",
     mkContentType (js "application/json") [(js "charset", js "utf-8")]);
  (js "application/x-www-form-urlencoded",
     mkContentType (js "application/x-www-form-urlencoded") []);
  (js "application/x-www-form-urlencoded; charset=utf-8",
     mkContentType (js "application/x-www-form-urlencoded") [(js "charset", js "utf-8")]);
  (js "text/plain",
     mkContentType (js "text/plain") []);
  (js "text/plain; charset=utf-8",
     mkContentType (js "text/plain") [(js "charset", js "utf-8")])
].

Record ContentTypeCache := mkContentTypeCache {
  cache : list (jsstring * ContentType);
  hits : nat;
  misses : nat
}.

(** [constructor ()] *)
Definition new : ContentTypeCache := mkContentTypeCache COMMON_TYPES 0 0.

Section Parse.
(** What the supplied parser may throw. *)
Context {Exn : Type}.

(** [parse(header, parser)]: [parser] either throws ([inl]) or returns
    the parsed object ([inr]); an exception thrown by [parser] leaves
    the object as it is at the time of the throw. Cached values are
    objects, hence truthy, so [if (cached)] tests for presence. *)
Definition parse (header : jsstring) (parser : jsstring -> Exn + ContentType)
    (c : ContentTypeCache) : (Exn + ContentType) * ContentTypeCache :=
  match JsMap.get header (cache c) with
  | Some cached => (inr cached, mkContentTypeCache (cache c) (S (hits c)) (misses c))
  | None =>
      let c1 := mkContentTypeCache (cache c) (hits c) (S (misses c)) in
      match parser header with
      | inl err => (inl err, c1)
      | inr parsed =>
          let c2 :=
            if length (cache c1) <? MAX_CACHE_SIZE
            then mkContentTypeCache (JsMap.set header parsed (cache c1)) (hits c1) (misses c1)
            else c1 in
          (inr parsed, c2)
      end
  end.

(** [clear()] *)
Definition clear (c : ContentTypeCache) : ContentTypeCache :=
  mkContentTypeCache COMMON_TYPES (hits c) (misses c).

Inductive op :=
| OpParse (header : jsstring) (parser : jsstring -> Exn + ContentType)
| OpClear.

Definition step (c : ContentTypeCache) (o : op) : ContentTypeCache :=
  match o with
  | OpParse header parser => snd (parse header parser c)
  | OpClear => clear c
  end.

Definition run (c : ContentTypeCache) (ops : list op) : ContentTypeCache :=
  fold_left step ops c.
End Parse.

End ContentTypeCache.

(** ** [lib/buffer-pool.js]

    Buffers are views on backing stores: a [Buffer] names its store, its
    offset in it and its length, and [buf.slice(0, size)] is a new view on
    the same store. The heap is the list of all stores allocated so far. *)
Module BufferPool.

Definition POOL_SIZE : nat := 8 * 1024.
Definition MAX_POOL_ENTRIES : nat := 50.

Record Buffer := mkBuffer { store : nat; offset : nat; blength : nat }.

Abbreviation heap := (list (list Byte.byte)).

Record BufferPool := mkBufferPool {
  pool : list Buffer;
  hits : nat;
  misses : nat
}.

(** [Buffer.allocUnsafe(n)]: a fresh store of [n] bytes whose contents are
    whatever the memory held, here the arbitrary [junk]. (Sizes requested
    here are at least [POOL_SIZE], above Node's small-buffer slab limit,
    so each allocation gets a store of its own.) *)
Definition allocUnsafe (junk : list Byte.byte) (n : nat) (h : heap) : Buffer * heap :=
  (mkBuffer (length h) 0 n, h ++ [map (fun i => nth i junk Byte.x00) (seq 0 n)]).

(** [buf.slice(0, size)], for [size <= buf.length]. *)
Definition slice0 (buf : Buffer) (size : nat) : Buffer :=
  mkBuffer (store buf) (offset buf) size.

(** [buf.fill(0)] *)
Definition fill0 (buf : Buffer) (h : heap) : heap :=
  match h !! store buf with
  | Some bytes =>
      <[store buf := imap (fun j x =>
                        if (offset buf <=? j) && (j <? offset buf + blength buf)
                        then Byte.x00 else x) bytes]> h
  | None => h
  end.

(** [buf[i] = b]; an index out of range is ignored. *)
Definition write (buf : Buffer) (i : nat) (b : Byte.byte) (h : heap) : heap :=
  if i <? blength buf then
    match h !! store buf with
    | Some bytes => <[store buf := <[offset buf + i := b]> bytes]> h
    | None => h
    end
  else h.

(** The bytes a buffer shows. *)
Definition contents (buf : Buffer) (h : heap) : list Byte.byte :=
  match h !! store buf with
  | Some bytes => take (blength buf) (drop (offset buf) bytes)
  | None => []
  end.

(** [constructor ()] *)
Definition new : BufferPool := mkBufferPool [] 0 0.

(** The loop of [acquire]: the first index [i] with
    [this.pool[i].length >= size]. *)
Fixpoint first_fit (l : list Buffer) (size i : nat) : option (nat * Buffer) :=
  match l with
  | [] => None
  | buf :: l' => if size <=? blength buf then Some (i, buf) else first_fit l' size (S i)
  end.

(** [this.pool.splice(i, 1)] *)
Definition splice1 (l : list Buffer) (i : nat) : list Buffer :=
  take i l ++ drop (S i) l.

(** [acquire(size)] *)
Definition acquire (junk : list Byte.byte) (size : nat) (h : heap) (bp : BufferPool)
    : Buffer * heap * BufferPool :=
  if POOL_SIZE * 2 <? size then
    let '(buf, h') := allocUnsafe junk size h in
    (buf, h', mkBufferPool (pool bp) (hits bp) (S (misses bp)))
  else
    match first_fit (pool bp) size 0 with
    | Some (i, buf) =>
        (if blength buf =? size then buf else slice0 buf size, h,
         mkBufferPool (splice1 (pool bp) i) (S (hits bp)) (misses bp))
    | None =>
        let '(buf, h') := allocUnsafe junk (Nat.max size POOL_SIZE) h in
        (buf, h', mkBufferPool (pool bp) (hits bp) (S (misses bp)))
    end.

(** [release(buffer)] *)
Definition release (buf : Buffer) (h : heap) (bp : BufferPool) : heap * BufferPool :=
  if (blength buf <=? POOL_SIZE * 2) && (length (pool bp) <? MAX_POOL_ENTRIES) then
    (fill0 buf h, mkBufferPool (pool bp ++ [buf]) (hits bp) (misses bp))
  else (h, bp).

(** [clear()] *)
Definition clear (bp : BufferPool) : BufferPool := mkBufferPool [] (hits bp) (misses bp).

(** The pool together with the requests using it: [held] are the buffers
    checked out and not yet released. A request writes only into buffers
    it holds and releases each of them once (the caller contract). *)
Record World := mkWorld { w_heap : heap; w_pool : BufferPool; w_held : list Buffer }.

Inductive event :=
| EvAcquire (junk : list Byte.byte) (size : nat)
| EvRelease (k : nat)
| EvWrite (k i : nat) (b : Byte.byte)
| EvClear.

Definition step (w : World) (ev : event) : World :=
  match ev with
  | EvAcquire junk size =>
      let '(buf, h, bp) := acquire junk size (w_heap w) (w_pool w) in
      mkWorld h bp (w_held w ++ [buf])
  | EvRelease k =>
      match w_held w !! k with
      | Some buf =>
          let '(h, bp) := release buf (w_heap w) (w_pool w) in
          mkWorld h bp (delete k (w_held w))
      | None => w
      end
  | EvWrite k i b =>
      match w_held w !! k with
      | Some buf => mkWorld (write buf i b (w_heap w)) (w_pool w) (w_held w)
      | None => w
      end
  | EvClear => mkWorld (w_heap w) (clear (w_pool w)) (w_held w)
  end.

Definition init : World := mkWorld [] new [].

Definition run (w : World) (evs : list event) : World := fold_left step evs w.

End BufferPool.

(** * Properties *)

(** ** The Map model *)
Module JsMapFacts.
Import JsMap.
Section Facts.
Context {K V : Type} `{EqDecision K}.
Implicit Types (m : list (K * V)) (k : K) (v : V).

Lemma get_set_eq k v m : get k (set k v m) = Some v.
Proof.
  induction m as [|[k' v'] m IH]; simpl.
  - by rewrite decide_True.
  - destruct (decide (k' = k)); simpl.
    + by rewrite decide_True.
    + by rewrite decide_False.
Qed.

Lemma length_delete_le k m : length (delete k m) <= length m.
Proof.
  induction m as [|[k' v'] m IH]; simpl; [lia|].
  destruct (decide (k' = k)); simpl; lia.
Qed.

Lemma length_set_le k v m : length (set k v m) <= S (length m).
Proof.
  induction m as [|[k' v'] m IH]; simpl; [lia|].
  destruct (decide (k' = k)); simpl; lia.
Qed.


Lemma delete_head k v m : delete k ((k, v) :: m) = m.
Proof. simpl. by rewrite decide_True. Qed.

Lemma delete_app_notin k v kept m :
  k ∉ keys kept -> delete k (kept ++ (k, v) :: m) = kept ++ m.
Proof.
  induction kept as [|[k' v'] kept IH]; simpl; intros Hk.
  - by rewrite decide_True.
  - rewrite decide_False; [|intros ->; apply Hk; left].
    f_equal. apply IH. intros ?; apply Hk; by right.
Qed.

Lemma keys_delete_sub k m : forall x, x ∈ keys (delete k m) -> x ∈ keys m.
Proof.
  induction m as [|[k' v'] m IH]; simpl; intros x; [done|].
  destruct (decide (k' = k)); simpl; [intros; by right|].
  intros [->|?]%elem_of_cons; [left|right; auto].
Qed.

Lemma NoDup_delete k m : NoDup (keys m) -> NoDup (keys (delete k m)).
Proof.
  induction m as [|[k' v'] m IH]; simpl; [done|].
  intros [Hn Hd]%NoDup_cons.
  destruct (decide (k' = k)); simpl; [done|].
  apply NoDup_cons; split; [|auto].
  intros Hin; apply Hn, (keys_delete_sub k m), Hin.
Qed.

Lemma keys_set k v m : forall x, x ∈ keys (set k v m) -> x = k \/ x ∈ keys m.
Proof.
  induction m as [|[k' v'] m IH]; simpl; intros x.
  - intros [->|?%elem_of_nil]%elem_of_cons; [by left|done].
  - destruct (decide (k' = k)); simpl.
    + intros [->|?]%elem_of_cons; right; [left|right]; done.
    + intros [->|[->|?]%IH]%elem_of_cons; [right; left|by left|right; by right].
Qed.

Lemma NoDup_set k v m : NoDup (keys m) -> NoDup (keys (set k v m)).
Proof.
  induction m as [|[k' v'] m IH]; simpl.
  - intros _. apply NoDup_singleton.
  - intros [Hn Hd]%NoDup_cons.
    destruct (decide (k' = k)) as [->|Hne]; simpl; apply NoDup_cons; split; auto.
    intros [->|?]%keys_set; [done|by apply Hn].
Qed.
End Facts.
End JsMapFacts.

(** ** The Body Parse Cache *)
Module ParseCacheFacts.
Import ParseCache JsMapFacts.

Section Facts.
Context {V : Type}.
Variable utf8_decode : list Byte.byte -> jsstring.
Variable sha256_hex : jsstring -> jsstring.

Abbreviation get := (ParseCache.get (V:=V) utf8_decode sha256_hex).
Abbreviation set := (ParseCache.set (V:=V) utf8_decode sha256_hex).
Abbreviation step := (ParseCache.step (V:=V) utf8_decode sha256_hex).
Abbreviation run := (ParseCache.run (V:=V) utf8_decode sha256_hex).
Abbreviation key := (_generateKey utf8_decode sha256_hex).
Abbreviation cleanup_body := (ParseCache.cleanup_body (V:=V)).

Definition expired (now : Z) (kv : jsstring * entry V) : bool :=
  (expiresAt kv.2 <? now)%Z.

Lemma step_maxSize (c : ParseCache V) o : maxSize (step c o) = maxSize c.
Proof.
  destruct o; simpl.
  - unfold ParseCache.get. repeat (case_match; simpl); done.
  - unfold ParseCache.set. repeat (case_match; simpl); done.
  - unfold cleanup. by case_match.
  - done.
Qed.

Lemma run_maxSize (c : ParseCache V) ops : maxSize (run c ops) = maxSize c.
Proof.
  revert c; induction ops as [|o ops IH]; intros c; simpl; [done|].
  unfold ParseCache.run in *. by rewrite IH, step_maxSize.
Qed.

(** [get] never reorders the entries: it keeps them, or deletes one. *)
Lemma get_cache b now (c : ParseCache V) :
  cache (snd (get b now c)) = cache c \/
  cache (snd (get b now c)) = JsMap.delete (key b) (cache c).
Proof.
  unfold ParseCache.get. case_match; [by left|].
  case_match; [|by left]. case_match; simpl; [by right|by left].
Qed.

Lemma cleanup_loop_le now (l m : list (jsstring * entry V)) n :
  length (fold_left (cleanup_body now) l (m, n)).1 <= length m.
Proof.
  revert m n; induction l as [|[k e] l IH]; intros m n; simpl; [lia|].
  case_match.
  - etrans; [apply IH|apply length_delete_le].
  - apply IH.
Qed.

Lemma cleanup_loop now (l kept : list (jsstring * entry V)) n :
  NoDup (JsMap.keys (kept ++ l)) ->
  fold_left (cleanup_body now) l (kept ++ l, n) =
    (kept ++ List.filter (fun kv => negb (expired now kv)) l,
     (n + length (List.filter (expired now) l))%nat).
Proof.
  revert kept n; induction l as [|[k e] l IH]; intros kept n Hnd; simpl.
  - by rewrite Nat.add_0_r.
  - unfold expired; simpl. destruct (expiresAt e <? now)%Z; simpl.
    + rewrite delete_app_notin.
      * rewrite IH; [unfold expired; f_equal; lia|].
        unfold JsMap.keys in *. rewrite map_app in Hnd |- *. simpl in Hnd.
        apply NoDup_app in Hnd as (H1 & H2 & H3).
        apply NoDup_app; split_and!; [done| |by apply NoDup_cons_1_2 in H3].
        intros x Hx1 Hx2. apply (H2 x Hx1). by right.
      * unfold JsMap.keys in *. rewrite map_app in Hnd. simpl in Hnd.
        apply NoDup_app in Hnd as (_ & H2 & _).
        intros Hin. apply (H2 k Hin). left.
    + replace (kept ++ (k, e) :: l) with ((kept ++ [(k, e)]) ++ l)
        by (rewrite <- app_assoc; reflexivity).
      rewrite IH; [|by rewrite <- app_assoc]. unfold expired. by rewrite <- app_assoc.
Qed.

Lemma NoDup_filter_keys f (l : list (jsstring * entry V)) :
  NoDup (JsMap.keys l) -> NoDup (JsMap.keys (List.filter f l)).
Proof.
  induction l as [|[k e] l IH]; simpl; [done|].
  intros [Hn Hd]%NoDup_cons. destruct (f (k, e)); simpl; [|auto].
  apply NoDup_cons; split; [|auto].
  intros Hin; apply Hn. unfold JsMap.keys in *.
  apply list_elem_of_fmap in Hin as ([k' e'] & -> & Hin').
  apply list_elem_of_fmap. exists (k', e'); split; [done|].
  apply list_elem_of_In in Hin'. apply filter_In in Hin' as [? _].
  by apply list_elem_of_In.
Qed.

Lemma NoDup_step (c : ParseCache V) o :
  NoDup (JsMap.keys (cache c)) -> NoDup (JsMap.keys (cache (step c o))).
Proof.
  intros Hnd. destruct o as [b now|b v now|now|]; simpl.
  - destruct (get_cache b now c) as [->| ->]; [done|by apply NoDup_delete].
  - unfold ParseCache.set. case_match; [done|]. simpl. apply NoDup_set.
    case_match; simpl; [|done]. case_match; [by apply NoDup_delete|done].
  - unfold cleanup. rewrite <- (app_nil_l (cache c)) at 2.
    rewrite cleanup_loop by done. simpl. by apply NoDup_filter_keys.
  - constructor.
Qed.
Lemma step_size (c : ParseCache V) o :
  (1 <= maxSize c)%Z -> (Z.of_nat (length (cache c)) <= maxSize c)%Z ->
  (Z.of_nat (length (cache (step c o))) <= maxSize c)%Z.
Proof.
  intros Hmax Hle. destruct o as [b now|b v now|now|]; simpl.
  - destruct (get_cache b now c) as [->| ->]; [done|].
    pose proof (length_delete_le (key b) (cache c)). lia.
  - unfold ParseCache.set. case_match; [done|]. simpl.
    destruct (maxSize c <=? Z.of_nat (length (cache c)))%Z eqn:Hcap; simpl.
    + destruct (cache c) as [|[k0 e0] rest] eqn:Hc; simpl in *; [lia|].
      rewrite ?delete_head, ?decide_True by done; simpl.
      pose proof (length_set_le (key b) (mkEntry V v (now + ttl c)) rest). lia.
    + pose proof (length_set_le (key b) (mkEntry V v (now + ttl c)) (cache c)). lia.
  - unfold cleanup.
    pose proof (cleanup_loop_le now (cache c) (cache c) 0) as H.
    destruct (fold_left _ _ _) as [m n]; simpl in *. lia.
  - simpl. lia.
Qed.

Lemma run_size (c : ParseCache V) ops :
  (1 <= maxSize c)%Z -> (Z.of_nat (length (cache c)) <= maxSize c)%Z ->
  (Z.of_nat (length (cache (run c ops))) <= maxSize c)%Z.
Proof.
  revert c; induction ops as [|o ops IH]; intros c H1 H2; simpl; [done|].
  unfold ParseCache.run in *. rewrite <- (step_maxSize c o).
  apply IH; rewrite step_maxSize; [done|]. by apply step_size.
Qed.

Lemma set_ttl_maxSize b v now (c : ParseCache V) :
  ttl (set b v now c) = ttl c /\ maxSize (set b v now c) = maxSize c.
Proof. unfold ParseCache.set. repeat (case_match; simpl); done. Qed.

Lemma step_ttl (c : ParseCache V) o : ttl (step c o) = ttl c.
Proof.
  destruct o as [b now|b v now|now|]; simpl.
  - unfold ParseCache.get. repeat (case_match; simpl); done.
  - apply set_ttl_maxSize.
  - unfold cleanup. by case_match.
  - done.
Qed.

Lemma run_ttl (c : ParseCache V) ops : ttl (run c ops) = ttl c.
Proof.
  unfold ParseCache.run. revert c.
  induction ops as [|o ops IH]; intros c; cbn [fold_left]; [done|].
  by rewrite IH, step_ttl.
Qed.

Lemma run_NoDup (c : ParseCache V) ops :
  NoDup (JsMap.keys (cache c)) -> NoDup (JsMap.keys (cache (run c ops))).
Proof.
  revert c; induction ops as [|o ops IH]; intros c Hnd; simpl; [done|].
  unfold ParseCache.run in *. apply IH. by apply NoDup_step.
Qed.


(** C1 (corrected): a body longer than [MAX_CACHEABLE_SIZE] is reported
    as not found without any lookup, and [get] changes nothing, the miss
    counter of [stats()] included. *)
Theorem get_oversized_body b now (c : ParseCache V) :
  MAX_CACHEABLE_SIZE < body_length b ->
  get b now c = (None, c) /\ stats (snd (get b now c)) = stats c.
Proof.
  intros Hbig. unfold ParseCache.get.
  rewrite (proj2 (Nat.ltb_lt _ _) Hbig). done.
Qed.

(** C2 (corrected): with [maxSize >= 1], every cache reached from a fresh
    one by any calls holds at most [maxSize] entries; [get] never moves
    an entry (it keeps the entries or deletes one); and a [set] of a
    cacheable body on a full cache removes exactly the first entry in
    insertion order, keeps all the others, stores the new entry and
    counts one eviction; a [set] of an oversized body changes nothing,
    even on a full cache. *)
Theorem set_fifo_eviction ttl0 maxSize0 ops :
  (1 <= maxSize0)%Z ->
  let c := run (new ttl0 maxSize0) ops in
  (Z.of_nat (length (cache c)) <= maxSize0)%Z /\
  (forall b now', cache (snd (get b now' c)) = cache c \/
                  cache (snd (get b now' c)) = JsMap.delete (key b) (cache c)) /\
  (forall b v now, body_length b <= MAX_CACHEABLE_SIZE ->
     (maxSize0 <= Z.of_nat (length (cache c)))%Z ->
     exists k0 e0 rest, cache c = (k0, e0) :: rest /\
       cache (set b v now c) = JsMap.set (key b) (mkEntry V v (now + ttl0)) rest /\
       evictions (set b v now c) = S (evictions c)) /\
  (forall b v now, MAX_CACHEABLE_SIZE < body_length b -> set b v now c = c).
Proof.
  intros Hmax c.
  assert (Hm : maxSize c = maxSize0) by (unfold c; by rewrite run_maxSize).
  assert (Ht : ttl c = ttl0) by (unfold c; by rewrite run_ttl).
  assert (Hsz : (Z.of_nat (length (cache c)) <= maxSize0)%Z).
  { change maxSize0 with (maxSize (new (V:=V) ttl0 maxSize0)).
    apply run_size; simpl; lia. }
  split_and!.
  - done.
  - intros b now'. apply get_cache.
  - intros b v now Hsmall Hcap.
    destruct (cache c) as [|[k0 e0] rest] eqn:Hc; simpl in *; [lia|].
    exists k0, e0, rest. split; [done|].
    unfold ParseCache.set. rewrite (proj2 (Nat.ltb_ge _ _) Hsmall).
    rewrite Hm, Hc. simpl. rewrite (proj2 (Z.leb_le _ _)) by (simpl in Hcap; lia).
    simpl. rewrite decide_True, Ht by done. done.
  - intros b v now Hbig. unfold ParseCache.set.
    by rewrite (proj2 (Nat.ltb_lt _ _) Hbig).
Qed.

(** C3: [set(body, v)] then [get(body)], before the entry expires,
    returns [v], for every cacheable body. *)
Theorem set_get_roundtrip b v now now' (c : ParseCache V) :
  body_length b <= MAX_CACHEABLE_SIZE -> (now' <= now + ttl c)%Z ->
  fst (get b now' (set b v now c)) = Some v.
Proof.
  intros Hsmall Hlive.
  unfold ParseCache.get. rewrite (proj2 (Nat.ltb_ge _ _) Hsmall).
  unfold ParseCache.set. rewrite (proj2 (Nat.ltb_ge _ _) Hsmall).
  destruct (maxSize c <=? Z.of_nat (length (cache c)))%Z; simpl;
    rewrite get_set_eq; simpl; by rewrite (proj2 (Z.ltb_ge _ _)) by lia.
Qed.

(** C4: an expired entry is never a hit. When [get] finds an entry whose
    expiry has passed it deletes it, counts a miss and reports not-found;
    a value [get] returns comes from an entry that has not expired; and
    [cleanup()] deletes exactly the expired entries (keeping the others
    in order) and returns how many it deleted. *)
Theorem expired_never_hit b now (c : ParseCache V) :
  NoDup (JsMap.keys (cache c)) ->
  (forall e, body_length b <= MAX_CACHEABLE_SIZE ->
     JsMap.get (key b) (cache c) = Some e -> (expiresAt e < now)%Z ->
     fst (get b now c) = None /\
     cache (snd (get b now c)) = JsMap.delete (key b) (cache c) /\
     misses (snd (get b now c)) = S (misses c)) /\
  (forall v, fst (get b now c) = Some v ->
     exists e, JsMap.get (key b) (cache c) = Some e /\ value e = v /\
               (now <= expiresAt e)%Z) /\
  cleanup now c =
    (length (List.filter (fun kv => (expiresAt kv.2 <? now)%Z) (cache c)),
     with_cache c (List.filter (fun kv => negb (expiresAt kv.2 <? now)%Z) (cache c))).
Proof.
  intros Hnd. split_and!.
  - intros e Hsmall He Hexp. unfold ParseCache.get.
    rewrite (proj2 (Nat.ltb_ge _ _) Hsmall), He.
    by rewrite (proj2 (Z.ltb_lt _ _) Hexp).
  - intros v. unfold ParseCache.get.
    case_match; [done|].
    destruct (JsMap.get (key b) (cache c)) as [e|]; [|done].
    destruct (expiresAt e <? now)%Z eqn:Hexp; [done|].
    simpl. intros [= <-]. exists e. split_and!; [done|done|].
    apply Z.ltb_ge in Hexp. lia.
  - unfold cleanup. rewrite <- (app_nil_l (cache c)) at 2.
    rewrite cleanup_loop by done. done.
Qed.

End Facts.
End ParseCacheFacts.

(** ** The Content-Type Cache *)
Module ContentTypeCacheFacts.
Import ContentTypeCache JsMapFacts.

Lemma set_absent {K V} `{EqDecision K} (k : K) (v : V) (m : list (K * V)) :
  JsMap.get k m = None -> JsMap.set k v m = m ++ [(k, v)].
Proof.
  induction m as [|[k' v'] m IH]; simpl; [done|].
  destruct (decide (k' = k)); [done|]. intros H. by rewrite IH.
Qed.

Section Facts.
Context {Exn : Type}.

Lemma step_shape (c : ContentTypeCache) (o : op (Exn:=Exn)) d :
  cache c = COMMON_TYPES ++ d ->
  length d <= MAX_CACHE_SIZE - length COMMON_TYPES ->
  exists d', cache (step c o) = COMMON_TYPES ++ d' /\
             length d' <= MAX_CACHE_SIZE - length COMMON_TYPES.
Proof.
  intros Hc Hd. destruct o as [header parser|]; simpl.
  - unfold parse. destruct (JsMap.get header (cache c)) eqn:Hg; simpl; [by exists d|].
    destruct (parser header); simpl; [by exists d|].
    destruct (length (cache c) <? MAX_CACHE_SIZE) eqn:Hlt; simpl; [|by exists d].
    exists (d ++ [(header, c0)]). rewrite set_absent by done.
    rewrite Hc, <- app_assoc. split; [done|].
    apply Nat.ltb_lt in Hlt. rewrite Hc, length_app in Hlt.
    rewrite length_app. simpl. unfold MAX_CACHE_SIZE in *. simpl in *. lia.
  - exists []. split; [reflexivity|simpl; lia].
Qed.

(** C7 (corrected): [clear()] resets the mapping to exactly the seeded
    baseline, and in every cache reached from a fresh one by [parse] and
    [clear] calls the baseline entries stay first and unchanged, while
    the dynamic entries after them number at most
    [MAX_CACHE_SIZE - 6] = 44: the baseline counts toward the maximum. *)
Theorem baseline_shares_capacity (ops : list (op (Exn:=Exn))) :
  let c := run new ops in
  cache (clear c) = COMMON_TYPES /\
  exists dynamic, cache c = COMMON_TYPES ++ dynamic /\
                  length dynamic <= MAX_CACHE_SIZE - length COMMON_TYPES.
Proof.
  intros c. split; [done|]. unfold c, run.
  assert (H0 : cache new = COMMON_TYPES ++ []) by (by rewrite app_nil_r).
  assert (H1 : length (@nil (jsstring * ContentType)) <= MAX_CACHE_SIZE - length COMMON_TYPES)
    by (simpl; lia).
  revert H0 H1. generalize (@nil (jsstring * ContentType)) as d. generalize new as c0.
  induction ops as [|o ops IH]; intros c0 d H0 H1; cbn [fold_left].
  - by exists d.
  - destruct (step_shape c0 o d H0 H1) as (d' & H0' & H1').
    exact (IH (step c0 o) d' H0' H1').
Qed.

(** C8: on an uncached header, a failure of the parser reaches the caller
    as it was raised, and the mapping is left as it was, so the header is
    still absent from it. *)
Theorem parse_failure_propagated header parser (err : Exn) (c : ContentTypeCache) :
  JsMap.get header (cache c) = None -> parser header = inl err ->
  fst (parse header parser c) = inl err /\
  cache (snd (parse header parser c)) = cache c /\
  JsMap.get header (cache (snd (parse header parser c))) = None.
Proof. intros Hg Hp. unfold parse. by rewrite Hg, Hp. Qed.

(** C10: the miss is counted before the parser runs, so a failing parse
    of an uncached header still adds one miss. *)
Theorem parse_failure_counts_miss header parser (err : Exn) (c : ContentTypeCache) :
  JsMap.get header (cache c) = None -> parser header = inl err ->
  misses (snd (parse header parser c)) = S (misses c) /\
  hits (snd (parse header parser c)) = hits c.
Proof. intros Hg Hp. unfold parse. by rewrite Hg, Hp. Qed.
End Facts.

End ContentTypeCacheFacts.

(** ** The Buffer Pool *)
Module BufferPoolFacts.
Import BufferPool.

Definition in_bounds (h : heap) (buf : Buffer) : Prop :=
  exists bytes, h !! store buf = Some bytes /\ offset buf + blength buf <= length bytes.

(** Every byte the buffer shows is zero. *)
Definition zeroed (h : heap) (buf : Buffer) : Prop :=
  exists bytes, h !! store buf = Some bytes /\
    forall j, offset buf <= j < offset buf + blength buf -> bytes !! j = Some Byte.x00.

(** Invariant of the pool and its users: the views are in bounds, no two
    of them (idle or checked out) share a backing store, and every idle
    view is zero-filled. *)
Record Inv (w : World) : Prop := {
  inv_bounds : forall buf, buf ∈ pool (w_pool w) ++ w_held w -> in_bounds (w_heap w) buf;
  inv_nodup : NoDup (map store (pool (w_pool w) ++ w_held w));
  inv_zero : forall buf, buf ∈ pool (w_pool w) -> zeroed (w_heap w) buf
}.

Lemma zeroed_contents h buf :
  zeroed h buf -> contents buf h = replicate (blength buf) Byte.x00.
Proof.
  intros (bytes & Hb & Hz). unfold contents. rewrite Hb.
  apply list_eq. intros i.
  destruct (decide (i < blength buf)) as [Hi|Hi].
  - rewrite lookup_take_lt, lookup_drop by done.
    rewrite lookup_replicate_2 by done. apply Hz. lia.
  - rewrite lookup_take_ge by lia. symmetry. apply lookup_replicate_None. lia.
Qed.

Lemma first_fit_spec l size i j buf :
  first_fit l size i = Some (j, buf) ->
  i <= j /\ l !! (j - i) = Some buf /\ size <= blength buf.
Proof.
  revert i; induction l as [|b l IH]; intros i; simpl; [done|].
  destruct (size <=? blength b) eqn:Hle.
  - intros [= <- <-]. rewrite Nat.sub_diag. apply Nat.leb_le in Hle. done.
  - intros H. destruct (IH (S i) H) as (Hij & Hl & Hs).
    split_and!; [lia| |done].
    replace (j - i) with (S (j - S i)) by lia. done.
Qed.

Lemma in_bounds_app h l buf : in_bounds h buf -> in_bounds (h ++ l) buf.
Proof. intros (bytes & Hb & Hl). exists bytes. by rewrite (lookup_app_l_Some _ _ _ _ Hb). Qed.

Lemma zeroed_app h l buf : zeroed h buf -> zeroed (h ++ l) buf.
Proof. intros (bytes & Hb & Hz). exists bytes. by rewrite (lookup_app_l_Some _ _ _ _ Hb). Qed.

Lemma in_bounds_store h buf : in_bounds h buf -> store buf < length h.
Proof. intros (bytes & Hb & _). by eapply lookup_lt_Some. Qed.

(** Replacing the bytes of store [s] by bytes of the same length. *)
Lemma in_bounds_update h s bytes bytes' buf :
  h !! s = Some bytes -> length bytes' = length bytes ->
  in_bounds h buf -> in_bounds (<[s := bytes']> h) buf.
Proof.
  unfold in_bounds. intros Hs Hlen (b0 & Hb & Hl).
  destruct (decide (s = store buf)) as [Heq|Hne].
  - exists bytes'. rewrite <- Heq, list_lookup_insert_eq by (by eapply lookup_lt_Some).
    rewrite <- Heq, Hs in Hb. injection Hb as <-. split; [done|lia].
  - exists b0. by rewrite list_lookup_insert_ne.
Qed.

Lemma zeroed_update_ne h s bytes' buf :
  s <> store buf -> zeroed h buf -> zeroed (<[s := bytes']> h) buf.
Proof. intros Hne (b0 & Hb & Hz). exists b0. by rewrite list_lookup_insert_ne. Qed.

Lemma zeroed_fill0 h buf : in_bounds h buf -> zeroed (fill0 buf h) buf.
Proof.
  intros (bytes & Hb & Hl). unfold fill0. rewrite Hb.
  eexists. rewrite list_lookup_insert_eq by (by eapply lookup_lt_Some).
  split; [done|]. intros j Hj.
  rewrite list_lookup_imap.
  destruct (bytes !! j) eqn:Hbj; [|apply lookup_ge_None in Hbj; lia].
  simpl. f_equal. rewrite (proj2 (Nat.leb_le _ _)), (proj2 (Nat.ltb_lt _ _)) by lia. done.
Qed.

Lemma in_bounds_fill0 h buf b :
  in_bounds h b -> in_bounds (fill0 buf h) b.
Proof.
  intros Hb. unfold fill0. destruct (h !! store buf) eqn:Hs; [|done].
  eapply in_bounds_update; [done| |done]. apply length_imap.
Qed.

Lemma zeroed_fill0_ne h buf b :
  store buf <> store b -> zeroed h b -> zeroed (fill0 buf h) b.
Proof.
  intros Hne Hz. unfold fill0. destruct (h !! store buf); [|done].
  by apply zeroed_update_ne.
Qed.

Lemma in_bounds_write h buf i x b :
  in_bounds h b -> in_bounds (write buf i x h) b.
Proof.
  intros Hb. unfold write. case_match; [|done].
  destruct (h !! store buf) eqn:Hs; [|done].
  eapply in_bounds_update; [done| |done]. apply length_insert.
Qed.

Lemma zeroed_write_ne h buf i x b :
  store buf <> store b -> zeroed h b -> zeroed (write buf i x h) b.
Proof.
  intros Hne Hz. unfold write. case_match; [|done].
  destruct (h !! store buf); [|done]. by apply zeroed_update_ne.
Qed.

Lemma stores_disjoint (p held : list Buffer) x y :
  NoDup (map store (p ++ held)) -> x ∈ p -> y ∈ held -> store x <> store y.
Proof.
  rewrite map_app. intros (_ & Hd & _)%NoDup_app Hx Hy Heq.
  apply (Hd (store x)); [by apply list_elem_of_fmap_2|].
  rewrite Heq. by apply list_elem_of_fmap_2.
Qed.

Lemma Inv_init : Inv init.
Proof. split; simpl; [by intros ? ?%elem_of_nil|constructor|by intros ? ?%elem_of_nil]. Qed.

Lemma alloc_inv w junk n buf h' bp' :
  Inv w -> allocUnsafe junk n (w_heap w) = (buf, h') -> pool bp' = pool (w_pool w) ->
  Inv (mkWorld h' bp' (w_held w ++ [buf])).
Proof.
  intros [Hb Hnd Hz] Ha Hp. unfold allocUnsafe in Ha. injection Ha as <- <-.
  split; simpl; rewrite Hp.
  - intros x. rewrite app_assoc. intros [Hx|Hx%list_elem_of_singleton]%elem_of_app;
      [|subst x].
    + by apply in_bounds_app, Hb.
    + eexists. simpl. rewrite lookup_app_r, Nat.sub_diag by lia. split; [done|].
      rewrite length_map, length_seq. lia.
  - rewrite app_assoc, map_app. apply NoDup_app. split_and!; [done| |apply NoDup_singleton].
    intros s Hs Hs'%list_elem_of_singleton. subst s.
    apply list_elem_of_fmap in Hs as (x & Hxs & Hx).
    pose proof (in_bounds_store _ _ (Hb x Hx)). simpl in Hxs. lia.
  - intros x Hx. by apply zeroed_app, Hz.
Qed.

(** What [acquire] keeps: the invariant, with the acquired view checked
    out; and a view taken from the idle set (counted as a hit) is zeroed. *)
Lemma acquire_inv w junk size buf h' bp' :
  Inv w -> acquire junk size (w_heap w) (w_pool w) = (buf, h', bp') ->
  Inv (mkWorld h' bp' (w_held w ++ [buf])) /\
  (hits bp' = S (hits (w_pool w)) -> zeroed h' buf).
Proof.
  intros Hinv Hacq. unfold acquire in Hacq.
  destruct (POOL_SIZE * 2 <? size).
  - destruct (allocUnsafe junk size (w_heap w)) as [b h] eqn:Ha.
    injection Hacq as <- <- <-. split; [by eapply alloc_inv|simpl; lia].
  - destruct (first_fit (pool (w_pool w)) size 0) as [[j b]|] eqn:Hf.
    + apply first_fit_spec in Hf as (_ & Hj & Hs). rewrite Nat.sub_0_r in Hj.
      injection Hacq as <- <- <-.
      set (ret := if blength b =? size then b else slice0 b size).
      assert (Hret : store ret = store b /\ offset ret = offset b /\ blength ret <= blength b).
      { unfold ret. case_match; simpl; [lia|]. split_and!; [done|done|lia]. }
      destruct Hret as (Hst & Hoff & Hlen).
      destruct Hinv as [Hb Hnd Hz].
      assert (Hperm : pool (w_pool w) ≡ₚ b :: delete j (pool (w_pool w)))
        by (by apply delete_Permutation).
      assert (Hin : b ∈ pool (w_pool w)) by (by eapply list_elem_of_lookup_2).
      assert (Hsub : forall x, x ∈ delete j (pool (w_pool w)) -> x ∈ pool (w_pool w)).
      { intros x Hx. rewrite Hperm. by right. }
      split; [split; simpl; unfold splice1; rewrite <- delete_take_drop|].
      * intros x. rewrite app_assoc. intros [[Hx|Hx]%elem_of_app|Hx%list_elem_of_singleton]%elem_of_app; [| |subst x].
        -- apply Hb, elem_of_app. left. by apply Hsub.
        -- apply Hb, elem_of_app. by right.
        -- destruct (Hb b) as (bytes & Hl & Hbd); [apply elem_of_app; by left|].
           exists bytes. rewrite Hst, Hoff. split; [done|lia].
      * assert (Hp : map store (delete j (pool (w_pool w)) ++ w_held w ++ [ret])
                     ≡ₚ map store (pool (w_pool w) ++ w_held w)).
        { transitivity (map store ((b :: delete j (pool (w_pool w))) ++ w_held w)).
          - rewrite app_assoc, map_app. simpl. rewrite Hst.
            symmetry. apply Permutation_cons_append.
          - apply Permutation_map, Permutation_app_tail. by symmetry. }
        by rewrite Hp.
      * intros x Hx. by apply Hz, Hsub.
      * intros _. destruct (Hz b Hin) as (bytes & Hl & Hbz).
        exists bytes. rewrite Hst. split; [done|]. intros k Hk. apply Hbz. lia.
    + destruct (allocUnsafe junk (Nat.max size POOL_SIZE) (w_heap w)) as [b h] eqn:Ha.
      injection Hacq as <- <- <-. split; [by eapply alloc_inv|simpl; lia].
Qed.

Lemma release_inv w k b :
  Inv w -> w_held w !! k = Some b ->
  Inv (let '(h, bp) := release b (w_heap w) (w_pool w) in mkWorld h bp (delete k (w_held w))).
Proof.
  intros [Hb Hnd Hz] Hk.
  assert (Hperm : w_held w ≡ₚ b :: delete k (w_held w)) by (by apply delete_Permutation).
  assert (Hsub : forall x, x ∈ delete k (w_held w) -> x ∈ w_held w).
  { intros x Hx. rewrite Hperm. by right. }
  assert (Hbin : b ∈ w_held w) by (by eapply list_elem_of_lookup_2).
  assert (Hst : map store (pool (w_pool w) ++ w_held w)
                ≡ₚ store b :: map store (pool (w_pool w) ++ delete k (w_held w))).
  { transitivity (map store (pool (w_pool w) ++ b :: delete k (w_held w))).
    - apply Permutation_map, Permutation_app_head, Hperm.
    - rewrite !map_app. simpl. symmetry. apply Permutation_middle. }
  rewrite Hst in Hnd. apply NoDup_cons in Hnd as [Hbn Hnd'].
  unfold release.
  destruct ((blength b <=? POOL_SIZE * 2) && (length (pool (w_pool w)) <? MAX_POOL_ENTRIES)).
  - split; simpl.
    + intros x Hx. apply in_bounds_fill0, Hb.
      rewrite <- app_assoc in Hx.
      apply elem_of_app in Hx as [Hx|[Hx%list_elem_of_singleton|Hx]%elem_of_app];
        apply elem_of_app; [by left|subst x; by right|right; by apply Hsub].
    + assert (Hp : map store ((pool (w_pool w) ++ [b]) ++ delete k (w_held w))
                   ≡ₚ store b :: map store (pool (w_pool w) ++ delete k (w_held w))).
      { rewrite <- app_assoc, !map_app. simpl. symmetry. apply Permutation_middle. }
      rewrite Hp. by apply NoDup_cons.
    + intros x [Hx|Hx%list_elem_of_singleton]%elem_of_app.
      * apply zeroed_fill0_ne; [|by apply Hz].
        intros Heq. apply Hbn. rewrite Heq, map_app. apply elem_of_app. left.
        by apply list_elem_of_fmap_2.
      * subst x. apply zeroed_fill0, Hb, elem_of_app. by right.
  - split; simpl; [|done|done].
    intros x [Hx|Hx]%elem_of_app; apply Hb, elem_of_app; [by left|right; by apply Hsub].
Qed.

Lemma step_inv w ev : Inv w -> Inv (step w ev).
Proof.
  intros Hinv. destruct ev as [junk size|k|k i x|]; simpl.
  - destruct (acquire junk size (w_heap w) (w_pool w)) as [[buf h] bp] eqn:Ha.
    by eapply acquire_inv.
  - destruct (w_held w !! k) as [b|] eqn:Hk; [|done].
    pose proof (release_inv w k b Hinv Hk) as Hr.
    by destruct (release b (w_heap w) (w_pool w)).
  - destruct (w_held w !! k) as [b|] eqn:Hk; [|done].
    destruct Hinv as [Hb Hnd Hz].
    assert (Hbin : b ∈ w_held w) by (by eapply list_elem_of_lookup_2).
    split; simpl; [|done|].
    + intros y Hy. by apply in_bounds_write, Hb.
    + intros y Hy. apply zeroed_write_ne; [|by apply Hz].
      intros Heq. by apply (stores_disjoint _ _ y b Hnd Hy Hbin).
  - destruct Hinv as [Hb Hnd Hz]. split; simpl.
    + intros y Hy. apply Hb, elem_of_app. by right.
    + rewrite map_app in Hnd. by apply NoDup_app in Hnd as (_ & _ & Hnd).
    + by intros ? ?%elem_of_nil.
Qed.

Lemma run_inv w evs : Inv w -> Inv (run w evs).
Proof.
  unfold run. revert w. induction evs as [|ev evs IH]; intros w Hw; cbn [fold_left]; [done|].
  by apply IH, step_inv.
Qed.

(** C5: after any history of acquisitions, writes by the holders and
    releases, a buffer that [acquire] takes from the idle set (the call
    counts a hit) shows only zero bytes: nothing written by an earlier
    holder of the memory can be read through it. *)
Theorem acquire_from_pool_zero_filled evs junk size buf h' bp' :
  let w := run init evs in
  acquire junk size (w_heap w) (w_pool w) = (buf, h', bp') ->
  hits bp' = S (hits (w_pool w)) ->
  contents buf h' = replicate (blength buf) Byte.x00.
Proof.
  intros w Ha Hhit. apply zeroed_contents.
  apply (proj2 (acquire_inv w junk size buf h' bp' (run_inv init evs Inv_init) Ha) Hhit).
Qed.

(** C6: [acquire(size)] always returns a buffer, of length at least
    [size], in each of its three branches. *)
Theorem acquire_length junk size h bp :
  size <= blength (fst (fst (acquire junk size h bp))).
Proof.
  unfold acquire. destruct (POOL_SIZE * 2 <? size); simpl; [lia|].
  destruct (first_fit (pool bp) size 0) as [[j b]|] eqn:Hf; simpl.
  - apply first_fit_spec in Hf as (_ & _ & Hs).
    destruct (blength b =? size) eqn:He; simpl; [|lia].
    apply Nat.eqb_eq in He. lia.
  - lia.
Qed.
End BufferPoolFacts.

(** * Concrete runs *)
Module Runs.
Import ParseCache.
Import Strings.String.StringSyntax.
Local Open Scope string_scope.

(** Stand-ins for the decoder and the digest: the bodies below are short
    strings, whose keys use neither. *)
Definition no_utf8 : list Byte.byte -> jsstring := fun _ => [].
Definition no_sha : jsstring -> jsstring := fun _ => [].

Definition big_body : body := BodyString (repeat 97%N (MAX_CACHEABLE_SIZE + 1)).

Lemma get_oversized_body_witness :
  let c := ParseCache.new (V:=nat) DEFAULT_TTL MAX_CACHE_SIZE in
  MAX_CACHEABLE_SIZE < body_length big_body /\
  (ParseCache.get no_utf8 no_sha big_body 0 c = (None, c) /\
   stats (snd (ParseCache.get no_utf8 no_sha big_body 0 c)) = stats c).
Proof.
  intros c.
  assert (H : MAX_CACHEABLE_SIZE < body_length big_body)
    by (apply Nat.ltb_lt; vm_compute; reflexivity).
  split; [exact H|].
  exact (ParseCacheFacts.get_oversized_body no_utf8 no_sha big_body 0 c H).
Defined.

(** C1: [get] of an oversized body does not count a miss. *)
Lemma get_oversized_body_miss_not_counted :
  let c := ParseCache.new (V:=nat) DEFAULT_TTL MAX_CACHE_SIZE in
  st_misses (stats (snd (ParseCache.get no_utf8 no_sha big_body 0 c)))
    <> S (st_misses (stats c)).
Proof. vm_compute. intros H. discriminate H. Qed.

(** C2: on a full cache, [set] of an oversized body evicts nothing; and
    with [maxSize = 0] a [set] leaves the cache above its maximum. *)
Lemma set_at_capacity_without_eviction :
  let c := ParseCache.set no_utf8 no_sha (BodyString (js "a")) 1%nat 0
             (ParseCache.new DEFAULT_TTL 1) in
  (Z.of_nat (length (cache c)) = maxSize c)%Z /\
  evictions (ParseCache.set no_utf8 no_sha big_body 2%nat 0 c) = evictions c /\
  cache (ParseCache.set no_utf8 no_sha big_body 2%nat 0 c) = cache c /\
  length (cache (ParseCache.set no_utf8 no_sha (BodyString (js "a")) 1%nat 0
                   (ParseCache.new DEFAULT_TTL 0))) = 1%nat.
Proof. vm_compute. split_and!; reflexivity. Qed.

Lemma set_fifo_eviction_witness :
  (1 <= 2)%Z /\
  let c := ParseCache.run no_utf8 no_sha (ParseCache.new DEFAULT_TTL 2)
             [OpSet (BodyString (js "a")) 1%nat 0; OpSet (BodyString (js "b")) 2%nat 0;
              OpGet (BodyString (js "a")) 5] in
  (Z.of_nat (length (cache c)) <= 2)%Z /\
  (forall b now', cache (snd (ParseCache.get no_utf8 no_sha b now' c)) = cache c \/
                  cache (snd (ParseCache.get no_utf8 no_sha b now' c)) =
                    JsMap.delete (_generateKey no_utf8 no_sha b) (cache c)) /\
  (forall b v now, body_length b <= MAX_CACHEABLE_SIZE ->
     (2 <= Z.of_nat (length (cache c)))%Z ->
     exists k0 e0 rest, cache c = (k0, e0) :: rest /\
       cache (ParseCache.set no_utf8 no_sha b v now c) =
         JsMap.set (_generateKey no_utf8 no_sha b) (mkEntry nat v (now + DEFAULT_TTL)) rest /\
       evictions (ParseCache.set no_utf8 no_sha b v now c) = S (evictions c)) /\
  (forall b v now, MAX_CACHEABLE_SIZE < body_length b ->
     ParseCache.set no_utf8 no_sha b v now c = c).
Proof.
  assert (H : (1 <= 2)%Z) by lia.
  split; [exact H|].
  exact (ParseCacheFacts.set_fifo_eviction no_utf8 no_sha DEFAULT_TTL 2 _ H).
Defined.

Lemma set_get_roundtrip_witness :
  let c := ParseCache.new (V:=nat) 10 MAX_CACHE_SIZE in
  let b := BodyString (js "id=1") in
  body_length b <= MAX_CACHEABLE_SIZE /\ (5 <= 0 + ttl c)%Z /\
  fst (ParseCache.get no_utf8 no_sha b 5 (ParseCache.set no_utf8 no_sha b 7%nat 0 c)) = Some 7%nat.
Proof.
  intros c b.
  assert (H1 : body_length b <= MAX_CACHEABLE_SIZE) by (apply Nat.leb_le; vm_compute; reflexivity).
  assert (H2 : (5 <= 0 + ttl c)%Z) by (vm_compute; discriminate).
  split; [exact H1|]. split; [exact H2|].
  exact (ParseCacheFacts.set_get_roundtrip no_utf8 no_sha b 7%nat 0 5 c H1 H2).
Defined.

Lemma expired_never_hit_witness :
  let c := ParseCache.run no_utf8 no_sha (ParseCache.new 10 MAX_CACHE_SIZE)
             [OpSet (BodyString (js "a")) 1%nat 0; OpSet (BodyString (js "b")) 2%nat 15] in
  let b := BodyString (js "a") in
  NoDup (JsMap.keys (cache c)) /\
  (forall e, body_length b <= MAX_CACHEABLE_SIZE ->
     JsMap.get (_generateKey no_utf8 no_sha b) (cache c) = Some e -> (expiresAt e < 20)%Z ->
     fst (ParseCache.get no_utf8 no_sha b 20 c) = None /\
     cache (snd (ParseCache.get no_utf8 no_sha b 20 c)) =
       JsMap.delete (_generateKey no_utf8 no_sha b) (cache c) /\
     misses (snd (ParseCache.get no_utf8 no_sha b 20 c)) = S (misses c)) /\
  (forall v, fst (ParseCache.get no_utf8 no_sha b 20 c) = Some v ->
     exists e, JsMap.get (_generateKey no_utf8 no_sha b) (cache c) = Some e /\ value e = v /\
               (20 <= expiresAt e)%Z) /\
  cleanup 20 c =
    (length (List.filter (fun kv => (expiresAt kv.2 <? 20)%Z) (cache c)),
     with_cache c (List.filter (fun kv => negb (expiresAt kv.2 <? 20)%Z) (cache c))).
Proof.
  intros c b.
  assert (H : NoDup (JsMap.keys (cache c))) by (apply (bool_decide_unpack _); vm_compute; reflexivity).
  split; [exact H|].
  exact (ParseCacheFacts.expired_never_hit no_utf8 no_sha b 20 c H).
Defined.


End Runs.

Module ContentTypeRuns.
Import ContentTypeCache.
Import Strings.String.StringSyntax.
Local Open Scope string_scope.

(** A parser that accepts every header, and one that rejects every header. *)
Definition accept_all (h : jsstring) : unit + ContentType := inr (mkContentType h []).
Definition reject_all (h : jsstring) : unit + ContentType := inl tt.

(** C7: from a fresh cache, after 44 headers have been stored the cache is
    full, and a 45th uncached header is not stored, although the dynamic
    entries are fewer than [MAX_CACHE_SIZE]. *)
Lemma dynamic_entries_capped_below_max :
  let c := run new (map (fun i => OpParse [N.of_nat i] accept_all) (seq 0 44)) in
  length (cache c) = MAX_CACHE_SIZE /\
  length (cache c) - length COMMON_TYPES = 44 /\
  JsMap.get [44%N] (cache c) = None /\
  cache (snd (parse [44%N] accept_all c)) = cache c.
Proof. vm_compute. split_and!; reflexivity. Qed.

Lemma parse_failure_propagated_witness :
  let h := js "image/png" in
  JsMap.get h (cache new) = None /\ reject_all h = inl tt /\
  (fst (parse h reject_all new) = inl tt /\
   cache (snd (parse h reject_all new)) = cache new /\
   JsMap.get h (cache (snd (parse h reject_all new))) = None).
Proof.
  intros h.
  assert (H1 : JsMap.get h (cache new) = None) by (vm_compute; reflexivity).
  assert (H2 : reject_all h = inl tt) by reflexivity.
  split; [exact H1|]. split; [exact H2|].
  exact (ContentTypeCacheFacts.parse_failure_propagated h reject_all tt new H1 H2).
Defined.

Lemma parse_failure_counts_miss_witness :
  let h := js "image/png" in
  JsMap.get h (cache new) = None /\ reject_all h = inl tt /\
  (misses (snd (parse h reject_all new)) = S (misses new) /\
   hits (snd (parse h reject_all new)) = hits new).
Proof.
  intros h.
  assert (H1 : JsMap.get h (cache new) = None) by (vm_compute; reflexivity).
  assert (H2 : reject_all h = inl tt) by reflexivity.
  split; [exact H1|]. split; [exact H2|].
  exact (ContentTypeCacheFacts.parse_failure_counts_miss h reject_all tt new H1 H2).
Defined.

End ContentTypeRuns.

Module BufferPoolRuns.
Import BufferPool.

(** A request acquires 100 bytes (a fresh 8 KiB store full of junk),
    writes into them and releases them; the next request acquires 50. *)
Definition history : list event :=
  [EvAcquire [Byte.x2a; Byte.x2b] 100; EvWrite 0 0 Byte.x41; EvWrite 0 1 Byte.x42;
   EvRelease 0].

Lemma acquire_from_pool_zero_filled_witness :
  let w := run init history in
  let r := acquire [Byte.x2a] 50 (w_heap w) (w_pool w) in
  acquire [Byte.x2a] 50 (w_heap w) (w_pool w) = (r.1.1, r.1.2, r.2) /\
  hits r.2 = S (hits (w_pool w)) /\
  contents r.1.1 r.1.2 = replicate (blength r.1.1) Byte.x00.
Proof.
  intros w r.
  assert (H1 : acquire [Byte.x2a] 50 (w_heap w) (w_pool w) = (r.1.1, r.1.2, r.2))
    by (unfold r; by destruct (acquire _ _ _ _) as [[? ?] ?]).
  assert (H2 : hits r.2 = S (hits (w_pool w))) by (vm_compute; reflexivity).
  split; [exact H1|]. split; [exact H2|].
  exact (BufferPoolFacts.acquire_from_pool_zero_filled history [Byte.x2a] 50 r.1.1 r.1.2 r.2 H1 H2).
Defined.

End BufferPoolRuns.

(** * Further properties of the Body Parse Cache *)
Module ParseCacheMore.
Import ParseCache JsMapFacts ParseCacheFacts.

Lemma get_set_ne {K V} `{EqDecision K} (k k' : K) (v : V) m :
  k <> k' -> JsMap.get k' (JsMap.set k v m) = JsMap.get k' m.
Proof.
  intros Hne. induction m as [|[k0 v0] m IH]; simpl.
  - by rewrite decide_False.
  - destruct (decide (k0 = k)) as [->|]; simpl.
    + by rewrite !decide_False.
    + destruct (decide (k0 = k')); [done|apply IH].
Qed.

Section More.
Context {V : Type}.
Variable utf8_decode : list Byte.byte -> jsstring.
Variable sha256_hex : jsstring -> jsstring.

Abbreviation get := (ParseCache.get (V:=V) utf8_decode sha256_hex).
Abbreviation set := (ParseCache.set (V:=V) utf8_decode sha256_hex).
Abbreviation run := (ParseCache.run (V:=V) utf8_decode sha256_hex).
Abbreviation key := (_generateKey utf8_decode sha256_hex).

(** The calls of a sequence that are [get]s of cacheable bodies. *)
Definition cacheable_get (o : op (V:=V)) : bool :=
  match o with
  | OpGet b _ => body_length b <=? MAX_CACHEABLE_SIZE
  | _ => false
  end.

(** A [get] of a cacheable body counts exactly one of a hit or a miss; it
    is a hit exactly when an unexpired entry is stored under the body's
    key, and then the entries are left as they are. *)
Theorem get_hit_or_miss b now (c : ParseCache V) :
  body_length b <= MAX_CACHEABLE_SIZE ->
  hits (snd (get b now c)) + misses (snd (get b now c)) = S (hits c + misses c) /\
  (forall v, fst (get b now c) = Some v <->
     exists e, JsMap.get (key b) (cache c) = Some e /\ value e = v /\ (now <= expiresAt e)%Z) /\
  (hits (snd (get b now c)) = S (hits c) -> cache (snd (get b now c)) = cache c).
Proof.
  intros Hsmall. unfold ParseCache.get. rewrite (proj2 (Nat.ltb_ge _ _) Hsmall).
  destruct (JsMap.get (key b) (cache c)) as [e|] eqn:He; simpl.
  - destruct (expiresAt e <? now)%Z eqn:Hexp; simpl.
    + split_and!; [lia| |lia]. intros v; split; [done|].
      intros (e' & [= <-] & _ & Hle). apply Z.ltb_lt in Hexp. lia.
    + split_and!; [lia| |done]. intros v; split.
      * intros [= <-]. exists e. apply Z.ltb_ge in Hexp. done.
      * by intros (e' & [= <-] & <- & _).
  - split_and!; [lia| |lia]. intros v; split; [done|]. by intros (? & ? & _).
Qed.

(** Storing a body does not change what [get] answers for a body with
    another key, as long as the cache was not full. *)
Theorem set_preserves_other_get b b' v now now' (c : ParseCache V) :
  (Z.of_nat (length (cache c)) < maxSize c)%Z ->
  key b <> key b' ->
  fst (get b' now' (set b v now c)) = fst (get b' now' c).
Proof.
  intros Hroom Hne. unfold ParseCache.set.
  destruct (MAX_CACHEABLE_SIZE <? body_length b); [done|].
  rewrite (proj2 (Z.leb_gt _ _) Hroom).
  unfold ParseCache.get. destruct (MAX_CACHEABLE_SIZE <? body_length b'); [done|].
  cbn [fst cache with_cache]. rewrite get_set_ne by done. by repeat case_match.
Qed.

(** A short body whose text equals the hex digest of a long body gets the
    long body's cache key, so it reads the long body's cached value. *)
Theorem digest_text_shares_key s v now now' (c : ParseCache V) :
  100 <= length s -> length s <= MAX_CACHEABLE_SIZE ->
  length (sha256_hex s) < 100 -> (now' <= now + ttl c)%Z ->
  fst (get (BodyString (sha256_hex s)) now' (set (BodyString s) v now c)) = Some v.
Proof.
  intros Hlong Hsmall Hdig Hlive.
  assert (Hk : key (BodyString (sha256_hex s)) = key (BodyString s)).
  { unfold _generateKey; simpl.
    rewrite (proj2 (Nat.ltb_lt _ _) Hdig), (proj2 (Nat.ltb_ge _ _) Hlong). done. }
  unfold ParseCache.get. simpl body_length.
  rewrite (proj2 (Nat.ltb_ge _ _)) by (unfold MAX_CACHEABLE_SIZE in *; lia).
  rewrite Hk. unfold ParseCache.set. simpl body_length.
  rewrite (proj2 (Nat.ltb_ge _ _) Hsmall).
  destruct (maxSize c <=? Z.of_nat (length (cache c)))%Z; simpl;
    rewrite get_set_eq; simpl; by rewrite (proj2 (Z.ltb_ge _ _)) by lia.
Qed.

(** [cleanup] at a given time leaves nothing for a second [cleanup] at
    the same time to remove. *)
Theorem cleanup_idempotent now (c : ParseCache V) :
  NoDup (JsMap.keys (cache c)) ->
  fst (cleanup now (snd (cleanup now c))) = 0.
Proof.
  intros Hnd. unfold cleanup at 2.
  rewrite <- (app_nil_l (cache c)) at 2. rewrite cleanup_loop by done. simpl.
  unfold cleanup. simpl.
  rewrite <- (app_nil_l (List.filter _ _)) at 2.
  rewrite cleanup_loop by (simpl; by apply NoDup_filter_keys). simpl.
  clear Hnd. induction (cache c) as [|kv l IH]; simpl; [done|].
  cbn. destruct (expired now kv) eqn:Hexp; cbn; [exact IH|]. by rewrite Hexp.
Qed.

(** Over any sequence of calls, [hits + misses] grows by exactly the
    number of [get] calls on cacheable bodies. *)
Theorem run_counts_lookups (c : ParseCache V) ops :
  hits (run c ops) + misses (run c ops) =
    hits c + misses c + length (List.filter cacheable_get ops).
Proof.
  unfold ParseCache.run. revert c.
  induction ops as [|o ops IH]; intros c; cbn [fold_left List.filter]; [simpl; lia|].
  rewrite IH.
  assert (Hstep : hits (ParseCache.step utf8_decode sha256_hex c o)
                  + misses (ParseCache.step utf8_decode sha256_hex c o) =
                  hits c + misses c + (if cacheable_get o then 1 else 0)).
  { destruct o as [b now|b v now|now|]; simpl.
    - destruct (body_length b <=? MAX_CACHEABLE_SIZE) eqn:Hs.
      + apply Nat.leb_le in Hs. destruct (get_hit_or_miss b now c Hs) as [H _]. lia.
      + apply Nat.leb_gt in Hs. unfold ParseCache.get.
        rewrite (proj2 (Nat.ltb_lt _ _) Hs). simpl. lia.
    - unfold ParseCache.set. repeat (case_match; simpl); lia.
    - unfold cleanup. case_match; simpl; lia.
    - simpl. lia. }
  destruct (cacheable_get o); simpl; lia.
Qed.
End More.
End ParseCacheMore.

(** * Further properties of the Buffer Pool *)
Module BufferPoolMore.
Import BufferPool BufferPoolFacts.

(** The events of a history that call [acquire]. *)
Definition is_acquire (ev : event) : bool :=
  match ev with EvAcquire _ _ => true | _ => false end.

(** What the pool keeps: at most [MAX_POOL_ENTRIES] idle buffers, none
    longer than [POOL_SIZE * 2]. *)
Definition pool_ok (bp : BufferPool) : Prop :=
  length (pool bp) <= MAX_POOL_ENTRIES /\
  forall b, b ∈ pool bp -> blength b <= POOL_SIZE * 2.

Lemma first_fit_None l size i :
  first_fit l size i = None <-> forall b, b ∈ l -> blength b < size.
Proof.
  revert i; induction l as [|b l IH]; intros i; simpl.
  - split; [|done]. intros _ b Hb. by apply elem_of_nil in Hb.
  - destruct (size <=? blength b) eqn:Hle.
    + split; [done|]. intros H. apply Nat.leb_le in Hle.
      specialize (H b (list_elem_of_here _ _)). lia.
    + rewrite IH. apply Nat.leb_gt in Hle. split.
      * intros H x [->|Hx]%elem_of_cons; [done|auto].
      * intros H x Hx. apply H. by apply list_elem_of_further.
Qed.

Lemma first_fit_app pre b post size i :
  (forall x, x ∈ pre -> blength x < size) -> size <= blength b ->
  first_fit (pre ++ b :: post) size i = Some (i + length pre, b).
Proof.
  revert i; induction pre as [|x pre IH]; intros i Hpre Hb; simpl.
  - rewrite (proj2 (Nat.leb_le _ _) Hb). by rewrite Nat.add_0_r.
  - rewrite (proj2 (Nat.leb_gt _ _)) by (apply Hpre, list_elem_of_here).
    rewrite IH; [f_equal; f_equal; lia| |done].
    intros y Hy. apply Hpre. by apply list_elem_of_further.
Qed.

Lemma splice1_app pre (b : Buffer) post :
  splice1 (pre ++ b :: post) (length pre) = pre ++ post.
Proof.
  unfold splice1. induction pre as [|x pre IH]; simpl; [done|]. by rewrite IH.
Qed.

Lemma splice1_sub l i x :
  i < length l -> x ∈ splice1 l i -> x ∈ l /\ length (splice1 l i) < length l.
Proof.
  intros Hi Hx. destruct (lookup_lt_is_Some_2 l i Hi) as [y Hy].
  unfold splice1 in *. rewrite <- delete_take_drop in *.
  pose proof (delete_Permutation l i y Hy) as Hp. split.
  - rewrite Hp. by apply list_elem_of_further.
  - apply Permutation_length in Hp. simpl in Hp. lia.
Qed.

Lemma acquire_pool_ok junk size h bp buf h' bp' :
  pool_ok bp -> acquire junk size h bp = (buf, h', bp') -> pool_ok bp'.
Proof.
  intros [Hlen Hall]. unfold acquire.
  destruct (POOL_SIZE * 2 <? size).
  - intros [= <- <- <-]. split; done.
  - destruct (first_fit (pool bp) size 0) as [[i b]|] eqn:Hf.
    + intros [= <- <- <-]. apply first_fit_spec in Hf as (_ & Hl & _).
      rewrite Nat.sub_0_r in Hl. apply lookup_lt_Some in Hl.
      destruct (splice1 (pool bp) i) as [|x0 l0] eqn:Hs.
      * split; simpl; [lia|]. intros b' Hb'. by apply elem_of_nil in Hb'.
      * assert (H0 : x0 ∈ splice1 (pool bp) i) by (rewrite Hs; apply list_elem_of_here).
        destruct (splice1_sub _ _ _ Hl H0) as [_ Hlt]. rewrite Hs in Hlt.
        split; cbn [pool]; [lia|]. intros b' Hb'. rewrite <- Hs in Hb'.
        apply Hall. by apply (splice1_sub _ _ _ Hl Hb').
    + intros [= <- <- <-]. split; cbn [pool]; done.
Qed.

(** In every history of acquisitions, writes, releases and clears, the
    pool holds at most [MAX_POOL_ENTRIES] idle buffers and none of them is
    longer than [POOL_SIZE * 2]. *)
Theorem pool_bounded evs : pool_ok (w_pool (run init evs)).
Proof.
  assert (Hstep : forall w ev, pool_ok (w_pool w) -> pool_ok (w_pool (step w ev))).
  { intros w ev Hw. destruct ev as [junk size|k|k i x|]; simpl.
    - destruct (acquire junk size (w_heap w) (w_pool w)) as [[buf h] bp] eqn:Ha.
      by eapply acquire_pool_ok.
    - destruct (w_held w !! k) as [b|]; [|done].
      unfold release.
      destruct (blength b <=? POOL_SIZE * 2) eqn:Hb;
        destruct (length (pool (w_pool w)) <? MAX_POOL_ENTRIES) eqn:Hn; simpl; try done.
      apply Nat.leb_le in Hb. apply Nat.ltb_lt in Hn. destruct Hw as [_ Hall].
      split; simpl.
      + rewrite length_app. simpl. lia.
      + intros b' [Hb'|Hb'%list_elem_of_singleton]%elem_of_app; [by apply Hall|by subst].
    - by destruct (w_held w !! k).
    - split; simpl; [lia|]. intros b Hb. by apply elem_of_nil in Hb. }
  unfold run.
  assert (H0 : forall w, pool_ok (w_pool w) -> pool_ok (w_pool (fold_left step evs w))).
  { induction evs as [|ev evs IH]; intros w Hw; simpl; [done|]. by apply IH, Hstep. }
  apply H0. split; simpl; [unfold MAX_POOL_ENTRIES; lia|]. intros b Hb. by apply elem_of_nil in Hb.
Qed.
(** [release] either pools the buffer, after zero-filling the bytes it
    shows, or, when the buffer is longer than [POOL_SIZE * 2] or the pool
    already holds [MAX_POOL_ENTRIES] buffers, changes nothing: such a
    buffer is neither pooled nor cleared. *)
Theorem release_pools_or_drops buf h bp :
  in_bounds h buf ->
  let '(h', bp') := release buf h bp in
  if (blength buf <=? POOL_SIZE * 2) && (length (pool bp) <? MAX_POOL_ENTRIES)
  then contents buf h' = replicate (blength buf) Byte.x00 /\ pool bp' = pool bp ++ [buf] /\
       hits bp' = hits bp /\ misses bp' = misses bp
  else h' = h /\ bp' = bp.
Proof.
  intros Hb. unfold release.
  destruct ((blength buf <=? POOL_SIZE * 2) && (length (pool bp) <? MAX_POOL_ENTRIES)); [|done].
  split_and!; try done. by apply zeroed_contents, zeroed_fill0.
Qed.

(** When [size] exceeds [POOL_SIZE * 2], or no idle buffer is at least
    [size] long, [acquire] leaves the pool as it is, counts a miss, and
    returns a view on a freshly allocated store of [size] bytes (large
    requests) or of [max(size, POOL_SIZE)] bytes. *)
Theorem acquire_miss_fresh junk size h bp buf h' bp' :
  (POOL_SIZE * 2 < size \/ forall b, b ∈ pool bp -> blength b < size) ->
  acquire junk size h bp = (buf, h', bp') ->
  pool bp' = pool bp /\ hits bp' = hits bp /\ misses bp' = S (misses bp) /\
  store buf = length h /\ offset buf = 0 /\ length h' = S (length h) /\
  blength buf = (if POOL_SIZE * 2 <? size then size else Nat.max size POOL_SIZE).
Proof.
  intros Hmiss. unfold acquire, allocUnsafe.
  destruct (POOL_SIZE * 2 <? size) eqn:Hl.
  - intros [= <- <- <-]. simpl. rewrite length_app. simpl. split_and!; try done; lia.
  - destruct Hmiss as [Hgt|Hnone]; [apply Nat.ltb_lt in Hgt; congruence|].
    rewrite (proj2 (first_fit_None _ _ _) Hnone).
    intros [= <- <- <-]. simpl. rewrite length_app. simpl. split_and!; try done; lia.
Qed.

(** First fit: when [size <= POOL_SIZE * 2] and the pool is
    [pre ++ b :: post] with [b] the first idle buffer at least [size]
    long, [acquire] removes exactly [b] from the pool, counts a hit, and
    returns a view of exactly [size] bytes at the start of [b]. *)
Theorem acquire_first_fit junk size h bp pre b post :
  size <= POOL_SIZE * 2 ->
  pool bp = pre ++ b :: post ->
  (forall x, x ∈ pre -> blength x < size) -> size <= blength b ->
  acquire junk size h bp =
    (mkBuffer (store b) (offset b) size, h, mkBufferPool (pre ++ post) (S (hits bp)) (misses bp)).
Proof.
  intros Hs Hp Hpre Hb. unfold acquire.
  rewrite (proj2 (Nat.ltb_ge _ _) Hs), Hp, first_fit_app by done.
  simpl. rewrite splice1_app.
  destruct (blength b =? size) eqn:He; [|done].
  apply Nat.eqb_eq in He. destruct b; simpl in *. by subst.
Qed.

(** Over any history, [hits + misses] grows by exactly the number of
    [acquire] calls: [release], writes and [clear] never change them. *)
Theorem run_counts_acquires w evs :
  hits (w_pool (run w evs)) + misses (w_pool (run w evs)) =
    hits (w_pool w) + misses (w_pool w) + length (List.filter is_acquire evs).
Proof.
  unfold run. revert w.
  induction evs as [|ev evs IH]; intros w; cbn [fold_left List.filter]; [simpl; lia|].
  rewrite IH.
  assert (Hstep : hits (w_pool (step w ev)) + misses (w_pool (step w ev)) =
                  hits (w_pool w) + misses (w_pool w) + (if is_acquire ev then 1 else 0)).
  { destruct ev as [junk size|k|k i x|]; simpl.
    - destruct (acquire junk size (w_heap w) (w_pool w)) as [[buf h] bp] eqn:Ha. simpl.
      revert Ha. unfold acquire, allocUnsafe.
      repeat (case_match; simpl); intros [= <- <- <-]; simpl; lia.
    - destruct (w_held w !! k) as [b|]; [|lia].
      destruct (release b (w_heap w) (w_pool w)) as [h bp] eqn:Hr. simpl.
      revert Hr. unfold release. case_match; intros [= <- <-]; simpl; lia.
    - destruct (w_held w !! k); simpl; lia.
    - lia. }
  destruct (is_acquire ev); simpl in *; lia.
Qed.
End BufferPoolMore.

(** * Further properties of the Content-Type cache *)
Module ContentTypeCacheMore.
Import ContentTypeCache ContentTypeCacheFacts.

Lemma get_app_l {K V} `{EqDecision K} (k : K) (v : V) l1 l2 :
  JsMap.get k l1 = Some v -> JsMap.get k (l1 ++ l2) = Some v.
Proof.
  induction l1 as [|[k' v'] l1 IH]; simpl; [done|].
  destruct (decide (k' = k)); [done|]. apply IH.
Qed.

Lemma get_COMMON_TYPES header v :
  (header, v) ∈ COMMON_TYPES -> JsMap.get header COMMON_TYPES = Some v.
Proof.
  intros H. unfold COMMON_TYPES in H.
  repeat (apply elem_of_cons in H as [H|H]; [injection H as -> ->; reflexivity|]).
  by apply elem_of_nil in H.
Qed.

Section More.
Context {Exn : Type}.

(** The calls of a sequence that are [parse] calls. *)
Definition is_parse (o : op (Exn:=Exn)) : bool :=
  match o with OpParse _ _ => true | OpClear => false end.

Lemma run_baseline_first (ops : list (op (Exn:=Exn))) :
  exists d, cache (run new ops) = COMMON_TYPES ++ d.
Proof.
  unfold run.
  assert (H : forall c d, cache c = COMMON_TYPES ++ d ->
            length d <= MAX_CACHE_SIZE - length COMMON_TYPES ->
            exists d', cache (fold_left step ops c) = COMMON_TYPES ++ d').
  { induction ops as [|o ops IH]; intros c d Hc Hd; cbn [fold_left]; [by exists d|].
    destruct (step_shape c o d Hc Hd) as (d' & Hc' & Hd'). by eapply IH. }
  apply (H new []); [by rewrite app_nil_r|simpl; lia].
Qed.

(** In every cache reached from a fresh one, [parse] of a seeded header
    returns the seeded object and counts a hit, whatever [parser] is:
    the parser is never called for these headers and the entries are
    not changed. *)
Theorem baseline_always_hit (ops : list (op (Exn:=Exn))) header v
    (parser : jsstring -> Exn + ContentType) :
  (header, v) ∈ COMMON_TYPES ->
  let c := run new ops in
  parse header parser c = (inr v, mkContentTypeCache (cache c) (S (hits c)) (misses c)).
Proof.
  intros Hin c. destruct (run_baseline_first ops) as [d Hd].
  unfold parse. fold c in Hd. rewrite Hd, (get_app_l _ _ _ _ (get_COMMON_TYPES _ _ Hin)).
  by rewrite <- Hd.
Qed.

(** Memoisation: when an uncached header parses successfully and the
    cache has room, the next [parse] of that header returns the same
    object without consulting its parser (any parser) and counts a hit. *)
Theorem parse_memoised header (parser parser' : jsstring -> Exn + ContentType) r
    (c : ContentTypeCache) :
  JsMap.get header (cache c) = None -> parser header = inr r ->
  length (cache c) < MAX_CACHE_SIZE ->
  let c1 := snd (parse header parser c) in
  fst (parse header parser' c1) = inr r /\
  hits (snd (parse header parser' c1)) = S (hits c) /\
  misses (snd (parse header parser' c1)) = S (misses c).
Proof.
  intros Hg Hp Hlen c1. unfold c1, parse. rewrite Hg, Hp. simpl.
  rewrite (proj2 (Nat.ltb_lt _ _) Hlen). simpl. by rewrite JsMapFacts.get_set_eq.
Qed.

(** When the cache already holds [MAX_CACHE_SIZE] entries, a successfully
    parsed header is not stored: the entries stay as they were and the
    next [parse] of that header calls its parser again and counts a
    second miss. *)
Theorem parse_full_not_stored header (parser parser' : jsstring -> Exn + ContentType) r
    (c : ContentTypeCache) :
  JsMap.get header (cache c) = None -> parser header = inr r ->
  MAX_CACHE_SIZE <= length (cache c) ->
  let c1 := snd (parse header parser c) in
  cache c1 = cache c /\
  fst (parse header parser' c1) = parser' header /\
  misses (snd (parse header parser' c1)) = S (S (misses c)).
Proof.
  intros Hg Hp Hlen c1.
  assert (Hc1 : c1 = mkContentTypeCache (cache c) (hits c) (S (misses c))).
  { unfold c1, parse. rewrite Hg, Hp. simpl. by rewrite (proj2 (Nat.ltb_ge _ _) Hlen). }
  rewrite Hc1. unfold parse. simpl. rewrite Hg.
  split; [done|]. destruct (parser' header) as [e|p]; simpl; [done|].
  by rewrite (proj2 (Nat.ltb_ge _ _) Hlen).
Qed.

(** Over any sequence of calls, [hits + misses] grows by exactly the
    number of [parse] calls, whether the parser succeeds or throws;
    [clear()] keeps both counters. *)
Theorem run_counts_parses (c : ContentTypeCache) (ops : list (op (Exn:=Exn))) :
  hits (run c ops) + misses (run c ops) =
    hits c + misses c + length (List.filter is_parse ops).
Proof.
  unfold run. revert c.
  induction ops as [|o ops IH]; intros c; cbn [fold_left List.filter]; [simpl; lia|].
  rewrite IH. destruct o as [header parser|]; simpl; [|lia].
  unfold parse. repeat (case_match; simpl); lia.
Qed.
End More.
End ContentTypeCacheMore.

(** * Runs of the further properties on concrete inputs *)
Module ParseCacheMoreRuns.
Import ParseCache.
Import Strings.String.StringSyntax.
Local Open Scope string_scope.

(** Stand-ins for the decoder and the digest: [fixed_digest] answers a
    64-character hex string, as a SHA-256 hex digest is. *)
Definition no_decode : list Byte.byte -> jsstring := fun _ => [].
Definition fixed_digest : jsstring -> jsstring := fun _ => repeat 48%N 64.

Definition small (s : String.string) : body := BodyString (js s).

Lemma get_hit_or_miss_witness :
  let c := ParseCache.set no_decode fixed_digest (small "a") 1%nat 0
             (ParseCache.new (V:=nat) 10 100) in
  body_length (small "a") <= MAX_CACHEABLE_SIZE /\
  (hits (snd (ParseCache.get no_decode fixed_digest (small "a") 5 c)) +
     misses (snd (ParseCache.get no_decode fixed_digest (small "a") 5 c)) = S (hits c + misses c) /\
   (forall v, fst (ParseCache.get no_decode fixed_digest (small "a") 5 c) = Some v <->
      exists e, JsMap.get (_generateKey no_decode fixed_digest (small "a")) (cache c) = Some e /\
                value e = v /\ (5 <= expiresAt e)%Z) /\
   (hits (snd (ParseCache.get no_decode fixed_digest (small "a") 5 c)) = S (hits c) ->
    cache (snd (ParseCache.get no_decode fixed_digest (small "a") 5 c)) = cache c)).
Proof.
  intros c.
  assert (H : body_length (small "a") <= MAX_CACHEABLE_SIZE)
    by (apply Nat.leb_le; vm_compute; reflexivity).
  split; [exact H|].
  exact (ParseCacheMore.get_hit_or_miss no_decode fixed_digest (small "a") 5 c H).
Defined.

Lemma set_preserves_other_get_witness :
  let c := ParseCache.set no_decode fixed_digest (small "a") 1%nat 0
             (ParseCache.new (V:=nat) 10 100) in
  (Z.of_nat (length (cache c)) < maxSize c)%Z /\
  _generateKey no_decode fixed_digest (small "b") <> _generateKey no_decode fixed_digest (small "a") /\
  fst (ParseCache.get no_decode fixed_digest (small "a") 5
         (ParseCache.set no_decode fixed_digest (small "b") 2%nat 3 c)) =
    fst (ParseCache.get no_decode fixed_digest (small "a") 5 c).
Proof.
  intros c.
  assert (H1 : (Z.of_nat (length (cache c)) < maxSize c)%Z) by (vm_compute; reflexivity).
  assert (H2 : _generateKey no_decode fixed_digest (small "b") <>
               _generateKey no_decode fixed_digest (small "a"))
    by (apply (bool_decide_unpack _); vm_compute; reflexivity).
  split; [exact H1|]. split; [exact H2|].
  exact (ParseCacheMore.set_preserves_other_get no_decode fixed_digest
           (small "b") (small "a") 2%nat 3 5 c H1 H2).
Defined.

Definition long_text : jsstring := repeat 97%N 100.

Lemma digest_text_shares_key_witness :
  let c := ParseCache.new (V:=nat) 10 100 in
  100 <= length long_text /\ length long_text <= MAX_CACHEABLE_SIZE /\
  length (fixed_digest long_text) < 100 /\ (5 <= 0 + ttl c)%Z /\
  fst (ParseCache.get no_decode fixed_digest (BodyString (fixed_digest long_text)) 5
         (ParseCache.set no_decode fixed_digest (BodyString long_text) 7%nat 0 c)) = Some 7%nat.
Proof.
  intros c.
  assert (H1 : 100 <= length long_text) by (apply Nat.leb_le; vm_compute; reflexivity).
  assert (H2 : length long_text <= MAX_CACHEABLE_SIZE) by (apply Nat.leb_le; vm_compute; reflexivity).
  assert (H3 : length (fixed_digest long_text) < 100) by (apply Nat.ltb_lt; vm_compute; reflexivity).
  assert (H4 : (5 <= 0 + ttl c)%Z) by (vm_compute; discriminate).
  split; [exact H1|]. split; [exact H2|]. split; [exact H3|]. split; [exact H4|].
  exact (ParseCacheMore.digest_text_shares_key no_decode fixed_digest long_text 7%nat 0 5 c
           H1 H2 H3 H4).
Defined.

Lemma cleanup_idempotent_witness :
  let c := ParseCache.run no_decode fixed_digest (ParseCache.new (V:=nat) 10 100)
             [OpSet (small "a") 1%nat 0; OpSet (small "b") 2%nat 20] in
  NoDup (JsMap.keys (cache c)) /\ fst (cleanup 15 (snd (cleanup 15 c))) = 0.
Proof.
  intros c.
  assert (H : NoDup (JsMap.keys (cache c)))
    by (apply (bool_decide_unpack _); vm_compute; reflexivity).
  split; [exact H|].
  exact (ParseCacheMore.cleanup_idempotent 15 c H).
Defined.
End ParseCacheMoreRuns.

Module BufferPoolMoreRuns.
Import BufferPool BufferPoolFacts.

Lemma release_pools_or_drops_witness :
  let buf := mkBuffer 0 0 4 in
  let h := [[Byte.x2a; Byte.x2b; Byte.x2c; Byte.x2d; Byte.x2e]] in
  in_bounds h buf /\
  let '(h', bp') := release buf h new in
  if (blength buf <=? POOL_SIZE * 2) && (length (pool new) <? MAX_POOL_ENTRIES)
  then contents buf h' = replicate (blength buf) Byte.x00 /\ pool bp' = pool new ++ [buf] /\
       hits bp' = hits new /\ misses bp' = misses new
  else h' = h /\ bp' = new.
Proof.
  intros buf h.
  assert (H : in_bounds h buf) by (eexists; split; [reflexivity|simpl; lia]).
  split; [exact H|].
  exact (BufferPoolMore.release_pools_or_drops buf h new H).
Defined.

Definition small_idle : Buffer := mkBuffer 0 0 50.
Definition idle_pool : BufferPool :=
  mkBufferPool [small_idle; mkBuffer 1 0 POOL_SIZE; mkBuffer 2 0 POOL_SIZE] 3 1.

Lemma acquire_miss_fresh_witness :
  let bp := mkBufferPool [small_idle] 0 0 in
  let r := acquire [Byte.x2a] 100 [] bp in
  (POOL_SIZE * 2 < 100 \/ forall b, b ∈ pool bp -> blength b < 100) /\
  acquire [Byte.x2a] 100 [] bp = (r.1.1, r.1.2, r.2) /\
  (pool r.2 = pool bp /\ hits r.2 = hits bp /\ misses r.2 = S (misses bp) /\
   store r.1.1 = length (@nil (list Byte.byte)) /\ offset r.1.1 = 0 /\
   length r.1.2 = S (length (@nil (list Byte.byte))) /\
   blength r.1.1 = (if POOL_SIZE * 2 <? 100 then 100 else Nat.max 100 POOL_SIZE)).
Proof.
  intros bp r.
  assert (H1 : POOL_SIZE * 2 < 100 \/ forall b, b ∈ pool bp -> blength b < 100).
  { right. intros b Hb. apply list_elem_of_singleton in Hb. subst b. simpl. lia. }
  assert (H2 : acquire [Byte.x2a] 100 [] bp = (r.1.1, r.1.2, r.2))
    by (unfold r; by destruct (acquire _ _ _ _) as [[? ?] ?]).
  split; [exact H1|]. split; [exact H2|].
  exact (BufferPoolMore.acquire_miss_fresh [Byte.x2a] 100 [] bp r.1.1 r.1.2 r.2 H1 H2).
Defined.

Lemma acquire_first_fit_witness :
  100 <= POOL_SIZE * 2 /\
  pool idle_pool = [small_idle] ++ mkBuffer 1 0 POOL_SIZE :: [mkBuffer 2 0 POOL_SIZE] /\
  (forall x, x ∈ [small_idle] -> blength x < 100) /\ 100 <= blength (mkBuffer 1 0 POOL_SIZE) /\
  acquire [Byte.x2a] 100 [] idle_pool =
    (mkBuffer (store (mkBuffer 1 0 POOL_SIZE)) (offset (mkBuffer 1 0 POOL_SIZE)) 100, [],
     mkBufferPool ([small_idle] ++ [mkBuffer 2 0 POOL_SIZE]) (S (hits idle_pool)) (misses idle_pool)).
Proof.
  assert (H1 : 100 <= POOL_SIZE * 2) by (apply Nat.leb_le; vm_compute; reflexivity).
  assert (H2 : pool idle_pool = [small_idle] ++ mkBuffer 1 0 POOL_SIZE :: [mkBuffer 2 0 POOL_SIZE])
    by reflexivity.
  assert (H3 : forall x, x ∈ [small_idle] -> blength x < 100).
  { intros x Hx. apply list_elem_of_singleton in Hx. subst x. simpl. lia. }
  assert (H4 : 100 <= blength (mkBuffer 1 0 POOL_SIZE)) by (unfold POOL_SIZE; simpl; lia).
  split; [exact H1|]. split; [exact H2|]. split; [exact H3|]. split; [exact H4|].
  exact (BufferPoolMore.acquire_first_fit [Byte.x2a] 100 [] idle_pool [small_idle]
           (mkBuffer 1 0 POOL_SIZE) [mkBuffer 2 0 POOL_SIZE] H1 H2 H3 H4).
Defined.
End BufferPoolMoreRuns.

Module ContentTypeMoreRuns.
Import ContentTypeCache.
Import Strings.String.StringSyntax.
Local Open Scope string_scope.

(** A parser that accepts every header, and one that rejects every header. *)
Definition accept_any (h : jsstring) : unit + ContentType := inr (mkContentType h []).
Definition reject_any (h : jsstring) : unit + ContentType := inl tt.

Definition json_type : ContentType := mkContentType (js "application/json") [].

Lemma baseline_always_hit_witness :
  let ops := [OpParse (js "text/html") accept_any; OpClear; OpParse (js "image/png") reject_any] in
  let c := run new ops in
  (js "application/json", json_type) ∈ COMMON_TYPES /\
  parse (js "application/json") reject_any c =
    (inr json_type, mkContentTypeCache (cache c) (S (hits c)) (misses c)).
Proof.
  intros ops c.
  assert (H : (js "application/json", json_type) ∈ COMMON_TYPES)
    by (unfold COMMON_TYPES; apply list_elem_of_here).
  split; [exact H|].
  exact (ContentTypeCacheMore.baseline_always_hit ops (js "application/json") json_type
           reject_any H).
Defined.

Lemma parse_memoised_witness :
  let h := js "text/html" in
  JsMap.get h (cache new) = None /\ accept_any h = inr (mkContentType h []) /\
  length (cache new) < MAX_CACHE_SIZE /\
  (fst (parse h reject_any (snd (parse h accept_any new))) = inr (mkContentType h []) /\
   hits (snd (parse h reject_any (snd (parse h accept_any new)))) = S (hits new) /\
   misses (snd (parse h reject_any (snd (parse h accept_any new)))) = S (misses new)).
Proof.
  intros h.
  assert (H1 : JsMap.get h (cache new) = None) by (vm_compute; reflexivity).
  assert (H2 : accept_any h = inr (mkContentType h [])) by reflexivity.
  assert (H3 : length (cache new) < MAX_CACHE_SIZE) by (apply Nat.ltb_lt; vm_compute; reflexivity).
  split; [exact H1|]. split; [exact H2|]. split; [exact H3|].
  exact (ContentTypeCacheMore.parse_memoised h accept_any reject_any _ new H1 H2 H3).
Defined.

(** A cache holding the six seeded entries and 44 dynamic ones. *)
Definition full_cache : ContentTypeCache :=
  mkContentTypeCache
    (COMMON_TYPES ++ map (fun i => ([N.of_nat i], mkContentType [N.of_nat i] [])) (seq 0 44)) 0 44.

Lemma parse_full_not_stored_witness :
  let h := js "text/html" in
  JsMap.get h (cache full_cache) = None /\ accept_any h = inr (mkContentType h []) /\
  MAX_CACHE_SIZE <= length (cache full_cache) /\
  (cache (snd (parse h accept_any full_cache)) = cache full_cache /\
   fst (parse h reject_any (snd (parse h accept_any full_cache))) = reject_any h /\
   misses (snd (parse h reject_any (snd (parse h accept_any full_cache)))) =
     S (S (misses full_cache))).
Proof.
  intros h.
  assert (H1 : JsMap.get h (cache full_cache) = None) by (vm_compute; reflexivity).
  assert (H2 : accept_any h = inr (mkContentType h [])) by reflexivity.
  assert (H3 : MAX_CACHE_SIZE <= length (cache full_cache))
    by (apply Nat.leb_le; vm_compute; reflexivity).
  split; [exact H1|]. split; [exact H2|]. split; [exact H3|].
  exact (ContentTypeCacheMore.parse_full_not_stored h accept_any reject_any _ full_cache
           H1 H2 H3).
Defined.
End ContentTypeMoreRuns.
